(** * Sliding-log rate limiter ([src/rate_limiter.py])

    A shallow embedding of the class [FixedWindowRateLimiter] and the
    properties its specification states about it.

    Modelling choices, all read off the source:
    - timestamps, [max_requests] and [window_size] are Python integers
      (as in the module's own tests), hence [Z], unbounded;
    - a [deque] of timestamps is a [list Z] whose head is the left end:
      [popleft] drops the head, [append] adds at the tail;
    - [request_logs] is a [defaultdict(deque)]: a finite map in which
      reading a missing key first stores an empty deque under that key;
    - client identifiers are any hashable value (the tests use [1] and
      ["A"]): a type [K] with decidable equality, countable so that it
      can key a [gmap]. *)

From stdpp Require Import gmap strings list sorting.

Open Scope Z_scope.

(** What a constructor call can produce: an instance, or a raised error. *)
Inductive exn : Set := InvalidConfiguration.

(** ** The deque of one client *)

(** The loop at the top of [allowRequest]:
    [while q and (curr_time - q[0]) >= window_size: q.popleft()]. *)
Fixpoint expire (window_size curr_time : Z) (q : list Z) : list Z :=
  match q with
  | [] => []
  | ts :: q' =>
      if curr_time - ts >=? window_size
      then expire window_size curr_time q'
      else q
  end.

(** The loop's test on an entry [ts]: [curr_time - ts >= window_size]. *)
Definition stale (window_size curr_time ts : Z) : Prop :=
  curr_time - ts >= window_size.

(** [len(q) < max_requests] *)
Definition check_valid (max_requests : Z) (q : list Z) : bool :=
  Z.of_nat (length q) <? max_requests.

(** The three phases of [allowRequest] on the deque it works on. *)
Definition step_log (max_requests window_size : Z) (q : list Z) (curr_time : Z)
  : bool * list Z :=
  let q1 := expire window_size curr_time q in
  let valid := check_valid max_requests q1 in
  (valid, if valid then q1 ++ [curr_time] else q1).

(** A single client calling at the times [ts], one after the other:
    the verdicts, paired with their times, and the deque left behind. *)
Fixpoint run_log (max_requests window_size : Z) (q : list Z) (ts : list Z)
  : list (Z * bool) * list Z :=
  match ts with
  | [] => ([], q)
  | t :: ts' =>
      let '(b, q') := step_log max_requests window_size q t in
      let '(evs, q'') := run_log max_requests window_size q' ts' in
      ((t, b) :: evs, q'')
  end.

(** Times of the admitted calls of an event list. *)
Definition admitted (evs : list (Z * bool)) : list Z :=
  fst <$> filter (λ e, e.2 = true) evs.

(** How many of the times [l] satisfy [P]. *)
Definition count_if (P : Z → Prop) `{!∀ t, Decision (P t)} (l : list Z) : Z :=
  Z.of_nat (length (filter P l)).

(** Windows of length [w]: [[a, a + w)], [(a, a + w]], and the closed
    interval [[a, a + w]]. *)
Definition in_window (w a t : Z) : Prop := a ≤ t ∧ t < a + w.
Definition in_window_right (w a t : Z) : Prop := a < t ∧ t ≤ a + w.
Definition in_closed (w a t : Z) : Prop := a ≤ t ∧ t ≤ a + w.

#[global] Instance in_window_dec w a t : Decision (in_window w a t).
Proof. unfold in_window. apply _. Defined.
#[global] Instance in_window_right_dec w a t : Decision (in_window_right w a t).
Proof. unfold in_window_right. apply _. Defined.
#[global] Instance in_closed_dec w a t : Decision (in_closed w a t).
Proof. unfold in_closed. apply _. Defined.

Definition count_in (w a : Z) (l : list Z) : Z := count_if (in_window w a) l.
Definition count_in_right (w a : Z) (l : list Z) : Z :=
  count_if (in_window_right w a) l.
Definition count_closed (w a : Z) (l : list Z) : Z := count_if (in_closed w a) l.

(** A set of times no two of which are [w] or more apart. *)
Definition narrow (w : Z) (P : Z → Prop) : Prop :=
  ∀ x y, P x → P y → x - y < w.

(** The verdicts of an event list, in order. *)
Definition verdicts {K} (evs : list (K * Z * bool)) : list bool := snd <$> evs.

(** ** The limiter *)

Section limiter.
Context {K : Type} `{Countable K}.

Record FixedWindowRateLimiter : Type := mkRL {
  max_requests : Z;
  window_size : Z;
  request_logs : gmap K (list Z)
}.

(** [__init__]: stores both arguments as given and starts from an empty
    [defaultdict]; the body has no [raise]. *)
Definition init (max_requests window_size : Z)
  : exn + FixedWindowRateLimiter :=
  inr (mkRL max_requests window_size ∅).

(** The instance a constructor call returns. *)
Definition new (max_requests window_size : Z) : FixedWindowRateLimiter :=
  mkRL max_requests window_size ∅.

(** [request_logs[clientId]] on a [defaultdict(deque)]: a missing key is
    created with an empty deque before it is returned. *)
Definition getitem (logs : gmap K (list Z)) (clientId : K)
  : list Z * gmap K (list Z) :=
  match logs !! clientId with
  | Some q => (q, logs)
  | None => ([], <[clientId := []]> logs)
  end.

(** [allowRequest]: expire the head of the client's deque, compare its
    length with [max_requests], append on success. The source reads
    [request_logs[clientId]] anew at every use and mutates the deque it
    gets in place; the first read creates a missing entry, every later one
    finds it, so here the deque is fetched once and stored back at the
    end. *)
Definition allowRequest (self : FixedWindowRateLimiter)
    (clientId : K) (curr_time : Z) : bool * FixedWindowRateLimiter :=
  let '(q, logs) := getitem (request_logs self) clientId in
  let q1 := expire (window_size self) curr_time q in
  let valid := Z.of_nat (length q1) <? max_requests self in
  let q2 := if valid then q1 ++ [curr_time] else q1 in
  (valid,
   mkRL (max_requests self) (window_size self) (<[clientId := q2]> logs)).

(** The client's log as the caller sees it: empty when not created yet. *)
Definition log_of (self : FixedWindowRateLimiter) (clientId : K) : list Z :=
  default [] (request_logs self !! clientId).

(** A sequence of calls, in order; each event records the call and its
    verdict. *)
Fixpoint run (self : FixedWindowRateLimiter) (calls : list (K * Z))
  : list (K * Z * bool) * FixedWindowRateLimiter :=
  match calls with
  | [] => ([], self)
  | (c, t) :: calls' =>
      let '(b, self') := allowRequest self c t in
      let '(evs, self'') := run self' calls' in
      ((c, t, b) :: evs, self'')
  end.

(** The calls of one client, and the events of one client. *)
Definition times_of (c : K) (calls : list (K * Z)) : list Z :=
  snd <$> filter (λ x, x.1 = c) calls.

Definition events_of (c : K) (evs : list (K * Z * bool)) : list (Z * bool) :=
  (λ e, (e.1.2, e.2)) <$> filter (λ e, e.1.1 = c) evs.

(** States that some sequence of calls on a fresh instance produces. *)
Definition reachable (m w : Z) (self : FixedWindowRateLimiter) : Prop :=
  ∃ calls, (run (new m w) calls).2 = self.

End limiter.

Arguments FixedWindowRateLimiter K {_ _}.
Arguments step_log : simpl never.
Arguments run_log : simpl never.
Arguments allowRequest : simpl never.
Arguments run : simpl never.

(** ** Measures, transformations and the module's tests *)

(** Every timestamp of a call sequence, of a mapping, of an instance moved
    by [d]: the same traffic on a clock with another origin. *)
Definition shift_calls {K} (d : Z) (calls : list (K * Z)) : list (K * Z) :=
  (λ x, (x.1, x.2 + d)) <$> calls.

Definition shift_events {K} (d : Z) (evs : list (K * Z * bool))
  : list (K * Z * bool) :=
  (λ e, (e.1.1, e.1.2 + d, e.2)) <$> evs.

Definition shift_log (d : Z) (q : list Z) : list Z := (λ ts, ts + d) <$> q.

Definition shift_limiter `{Countable K} (d : Z)
    (self : FixedWindowRateLimiter K) : FixedWindowRateLimiter K :=
  mkRL (max_requests self) (window_size self)
       (fmap (M:=gmap K) (shift_log d) (request_logs self)).

(** The clients a call sequence names. *)
Definition clients_of `{Countable K} (calls : list (K * Z)) : gset K :=
  list_to_set (fst <$> calls).

(** How many timestamps an instance holds, over all clients. *)
Definition total_entries `{Countable K} (self : FixedWindowRateLimiter K) : nat :=
  sum_list_with (λ kv, length kv.2) (map_to_list (request_logs self)).

(** The test functions at the end of the module. A test either completes
    ([Some ()]) or stops at the first [assert] that fails ([None], the
    [AssertionError]); the limiter is threaded from call to call. *)
Module Tests.

Definition assert_ (b : bool) : option unit := if b then Some () else None.

(** [assert rl.allowRequest(...) == True], and [== False]. *)
Definition is_true (b : bool) : bool := bool_decide (b = true).
Definition is_false (b : bool) : bool := bool_decide (b = false).

Definition test_basic_allow_and_deny : option unit :=
  let rl := new (K:=Z) 2 2 in
  let r := allowRequest rl 1 1 in
  assert_ (is_true r.1) ;;
  let r := allowRequest r.2 1 2 in
  assert_ (is_true r.1) ;;
  let r := allowRequest r.2 1 2 in
  assert_ (is_false r.1) ;;
  let r := allowRequest r.2 1 3 in
  assert_ (is_true r.1).

Definition test_cleanup_after_window : option unit :=
  let rl := new (K:=string) 2 5 in
  let r := allowRequest rl "A" 1 in
  assert_ r.1 ;;
  let r := allowRequest r.2 "A" 2 in
  assert_ r.1 ;;
  let r := allowRequest r.2 "A" 7 in
  assert_ r.1.

Definition test_multiple_clients : option unit :=
  let rl := new (K:=string) 1 2 in
  let r := allowRequest rl "A" 1 in
  assert_ r.1 ;;
  let r := allowRequest r.2 "B" 1 in
  assert_ r.1 ;;
  let r := allowRequest r.2 "A" 1 in
  assert_ (is_false r.1) ;;
  let r := allowRequest r.2 "B" 1 in
  assert_ (is_false r.1).

Definition test_exact_window_boundary : option unit :=
  let rl := new (K:=string) 2 10 in
  let r := allowRequest rl "A" 1 in
  let r := allowRequest r.2 "A" 2 in
  let r := allowRequest r.2 "A" 11 in
  assert_ (is_true r.1).

(** The [if __name__ == "__main__":] block. *)
Definition main : option unit :=
  test_basic_allow_and_deny ;;
  test_cleanup_after_window ;;
  test_multiple_clients ;;
  test_exact_window_boundary.

End Tests.

(** * Properties *)

(** ** The expiry loop *)

Section expire_facts.
Variables w t : Z.

Lemma expire_cons_expired ts q :
  w ≤ t - ts → expire w t (ts :: q) = expire w t q.
Proof. intros Hts. simpl. destruct (Z.geb_spec (t - ts) w); [done | lia]. Qed.

Lemma expire_cons_live ts q :
  t - ts < w → expire w t (ts :: q) = ts :: q.
Proof. intros Hts. simpl. destruct (Z.geb_spec (t - ts) w); [lia | done]. Qed.

(** What the loop pops is a prefix made of expired entries only. *)
Lemma expire_split q :
  ∃ pre, q = pre ++ expire w t q ∧ Forall (stale w t) pre.
Proof.
  induction q as [|ts q [pre [Hq Hpre]]].
  - by exists [].
  - destruct (Z_lt_ge_dec (t - ts) w) as [Hlive | Hold].
    + exists []. by rewrite expire_cons_live.
    + exists (ts :: pre). rewrite expire_cons_expired by lia. split.
      * simpl. by rewrite <- Hq.
      * constructor; [exact Hold | exact Hpre].
Qed.

(** The loop stops at an entry that is still inside the window. *)
Lemma expire_head ts :
  ∀ q, head (expire w t q) = Some ts → t - ts < w.
Proof.
  induction q as [|ts' q IH]; [done |].
  destruct (Z_lt_ge_dec (t - ts') w) as [Hlive | Hold].
  - rewrite expire_cons_live by done. simpl. intros [= ->]. done.
  - rewrite expire_cons_expired by lia. done.
Qed.

(** Any split into an expired prefix and a rest that is empty or starts
    with a live entry is the one the loop computes. *)
Lemma expire_unique pre :
  ∀ post,
    Forall (stale w t) pre →
    (∀ ts, head post = Some ts → t - ts < w) →
    expire w t (pre ++ post) = post.
Proof.
  induction pre as [|ts pre IH]; intros post Hpre Hpost.
  - destruct post as [|ts post]; [done |].
    apply expire_cons_live, Hpost. done.
  - apply Forall_cons in Hpre as [Hts Hpre]. unfold stale in Hts.
    simpl app. rewrite expire_cons_expired by lia. by apply IH.
Qed.

Lemma expire_suffix q : expire w t q `suffix_of` q.
Proof. destruct (expire_split q) as [pre [Hq _]]. by exists pre. Qed.

Lemma expire_length q : (length (expire w t q) ≤ length q)%nat.
Proof. apply suffix_length, expire_suffix. Qed.

(** Running the loop a second time at the same instant pops nothing. *)
Lemma expire_idemp q : expire w t (expire w t q) = expire w t q.
Proof.
  apply (expire_unique []); [constructor |].
  intros ts. apply expire_head.
Qed.

(** A loop that pops nothing leaves the deque as it was. *)
Lemma expire_same_length q :
  length (expire w t q) = length q → expire w t q = q.
Proof.
  intros Hlen. destruct (expire_split q) as [pre [Hq _]].
  assert (length pre = 0%nat) as Hpre.
  { apply (f_equal length) in Hq. rewrite length_app in Hq. lia. }
  destruct pre; [by rewrite Hq at 2 | done].
Qed.

(** On a non-decreasing deque nothing that survives the loop is stale. *)
Lemma expire_sorted_live q :
  StronglySorted Z.le q → Forall (λ ts, t - ts < w) (expire w t q).
Proof.
  induction 1 as [|ts q Hq IH Hts]; [constructor |].
  destruct (Z_lt_ge_dec (t - ts) w) as [Hlive | Hold].
  - rewrite expire_cons_live by done. constructor; [done |].
    eapply Forall_impl; [exact Hts |]. simpl. lia.
  - rewrite expire_cons_expired by lia. done.
Qed.
End expire_facts.

(** ** One call on the limiter *)

Section call_facts.
Context {K : Type} `{Countable K}.
Implicit Types (self : FixedWindowRateLimiter K) (c : K) (t : Z).

Lemma getitem_log self c :
  (getitem (request_logs self) c).1 = log_of self c.
Proof. unfold getitem, log_of. by destruct (request_logs self !! c). Qed.

Lemma getitem_insert self c q :
  <[c := q]> (getitem (request_logs self) c).2 = <[c := q]> (request_logs self).
Proof.
  unfold getitem. destruct (request_logs self !! c); [done |].
  apply insert_insert_eq.
Qed.

(** The call is [step_log] on the client's deque, stored back under the
    client's key; nothing else of the instance changes. *)
Lemma allowRequest_step self c t :
  allowRequest self c t =
    let r := step_log (max_requests self) (window_size self) (log_of self c) t in
    (r.1, mkRL (max_requests self) (window_size self)
               (<[c := r.2]> (request_logs self))).
Proof.
  unfold allowRequest, step_log, check_valid.
  pose proof (getitem_log self c) as Hq.
  pose proof (λ q, getitem_insert self c q) as Hins.
  destruct (getitem (request_logs self) c) as [q logs].
  simpl in *. subst q. by rewrite Hins.
Qed.

Lemma allowRequest_max self c t :
  max_requests (allowRequest self c t).2 = max_requests self.
Proof. by rewrite allowRequest_step. Qed.

Lemma allowRequest_window self c t :
  window_size (allowRequest self c t).2 = window_size self.
Proof. by rewrite allowRequest_step. Qed.

Lemma allowRequest_verdict self c t :
  (allowRequest self c t).1 =
    check_valid (max_requests self) (expire (window_size self) t (log_of self c)).
Proof. by rewrite allowRequest_step. Qed.

Lemma allowRequest_lookup self c t :
  request_logs (allowRequest self c t).2 !! c =
    Some (step_log (max_requests self) (window_size self) (log_of self c) t).2.
Proof. rewrite allowRequest_step. simpl. apply lookup_insert_eq. Qed.

Lemma allowRequest_log self c t :
  log_of (allowRequest self c t).2 c =
    (step_log (max_requests self) (window_size self) (log_of self c) t).2.
Proof. unfold log_of at 1. by rewrite allowRequest_lookup. Qed.

Lemma allowRequest_lookup_ne self c t c' :
  c' ≠ c →
  request_logs (allowRequest self c t).2 !! c' = request_logs self !! c'.
Proof. intros Hne. rewrite allowRequest_step. simpl. by apply lookup_insert_ne. Qed.

Lemma allowRequest_log_ne self c t c' :
  c' ≠ c → log_of (allowRequest self c t).2 c' = log_of self c'.
Proof. intros Hne. unfold log_of. by rewrite allowRequest_lookup_ne. Qed.
End call_facts.

(** ** Claims about a single call *)

Section call_claims.
Context {K : Type} `{Countable K}.
Implicit Types (self other : FixedWindowRateLimiter K) (c : K) (t : Z).

(** C1. A call [allowRequest self c t] splits the client's log into a
    prefix [pre] and a rest [post]: every entry of [pre] is stale
    ([t - ts >= window_size], equality included), [post] is empty or
    starts with an entry that is not stale, and [pre] is what the call
    removes. The verdict is [true] exactly when [post] is strictly
    shorter than [max_requests]; the log left behind is [post], followed
    by [t] when the verdict is [true]. In particular a head entry that is
    exactly [window_size] old is removed. *)
Theorem allowRequest_expire_then_decide self c t :
  ∃ pre post,
    log_of self c = pre ++ post ∧
    Forall (stale (window_size self) t) pre ∧
    (∀ ts, head post = Some ts → t - ts < window_size self) ∧
    post = expire (window_size self) t (log_of self c) ∧
    ((allowRequest self c t).1 = true ↔
       Z.of_nat (length post) < max_requests self) ∧
    log_of (allowRequest self c t).2 c =
      (if (allowRequest self c t).1 then post ++ [t] else post) ∧
    (∀ ts rest, log_of self c = ts :: rest → t - ts = window_size self →
       ∃ pre', pre = ts :: pre').
Proof.
  destruct (expire_split (window_size self) t (log_of self c))
    as [pre [Hsplit Hpre]].
  exists pre, (expire (window_size self) t (log_of self c)).
  split_and!; try done.
  - intros ts. apply expire_head.
  - rewrite allowRequest_verdict. unfold check_valid. apply Z.ltb_lt.
  - rewrite allowRequest_log, allowRequest_verdict. done.
  - intros ts rest Hlog Hage.
    rewrite Hlog, expire_cons_expired in Hsplit by lia.
    destruct pre as [|ts' pre'].
    + apply (f_equal length) in Hsplit. simpl in Hsplit.
      pose proof (expire_length (window_size self) t rest). lia.
    + injection Hsplit as -> _. by exists pre'.
Qed.

(** C6. After [allowRequest self c t] the client's log is the log the
    expiry loop left, with [t] appended at its end when the verdict is
    [true] (one entry more than after expiry, the last one being [t]),
    and exactly that log, nothing appended, when the verdict is
    [false]. *)
Theorem allowRequest_record self c t :
  let q1 := expire (window_size self) t (log_of self c) in
  let r := allowRequest self c t in
  request_logs r.2 !! c = Some (log_of r.2 c) ∧
  log_of r.2 c = (if r.1 then q1 ++ [t] else q1) ∧
  length (log_of r.2 c) = (if r.1 then S (length q1) else length q1) ∧
  (if r.1 then last (log_of r.2 c) = Some t else True).
Proof.
  intros q1 r. subst q1 r.
  rewrite allowRequest_log, allowRequest_lookup, allowRequest_verdict.
  unfold step_log. simpl.
  destruct (check_valid _ _); split_and!; try done.
  - rewrite length_app. simpl. lia.
  - apply last_snoc.
Qed.

(** C9. A call for client [c] leaves the mapping entry of every other
    client [c'] as it was, present with the same contents or absent.
    Nor does it read any other entry: on an instance [other] with the
    same configuration and the same entry for [c], whatever its other
    entries, the call gives the same verdict and the same entry for
    [c]. *)
Theorem allowRequest_frame self c t c' (Hne : c' ≠ c) :
  request_logs (allowRequest self c t).2 !! c' = request_logs self !! c' ∧
  ∀ other,
    max_requests other = max_requests self →
    window_size other = window_size self →
    request_logs other !! c = request_logs self !! c →
    (allowRequest other c t).1 = (allowRequest self c t).1 ∧
    request_logs (allowRequest other c t).2 !! c =
      request_logs (allowRequest self c t).2 !! c.
Proof.
  split; [by apply allowRequest_lookup_ne |].
  intros other Hm Hw Hc.
  assert (log_of other c = log_of self c) as Hlog.
  { unfold log_of. by rewrite Hc. }
  rewrite !allowRequest_verdict, !allowRequest_lookup, Hm, Hw, Hlog. done.
Qed.

(** C3, as the code has it. [__init__] never raises: for every pair of
    arguments, positive or not, construction succeeds and gives an
    instance that holds the two values unchanged and an empty mapping. *)
Theorem init_always_succeeds (m w : Z) :
  init m w = inr (mkRL (K:=K) m w ∅) ∧
  init (K:=K) m w ≠ inl InvalidConfiguration.
Proof. unfold init. split; [done | discriminate]. Qed.
End call_claims.

(** ** Scenarios *)

(** C3, as the specification words it, fails: [max_requests = 0] and
    [window_size = 0] are accepted. *)
Lemma init_zero_accepted :
  ¬ (∀ m w : Z, m ≤ 0 ∨ w ≤ 0 →
       init (K:=string) m w = inl InvalidConfiguration).
Proof.
  intros Hrej. specialize (Hrej 0 0 (or_introl (Z.le_refl 0))).
  discriminate Hrej.
Qed.

(** C4. On a fresh limiter with [max_requests = 2], [window_size = 10],
    client ["A"] is admitted at 1 and at 2, denied at 2 again, admitted at
    11, and is left with the log [[2; 11]]. *)
Theorem exact_window_boundary :
  let r := run (new 2 10) [("A", 1); ("A", 2); ("A", 2); ("A", 11)] in
  r.1 = [("A", 1, true); ("A", 2, true); ("A", 2, false); ("A", 11, true)] ∧
  request_logs r.2 !! "A" = Some [2; 11] ∧
  log_of r.2 "A" = [2; 11].
Proof. vm_compute. done. Qed.

(** A witness of C9: client ["A"] calls, client ["B"] has a log. *)
Lemma allowRequest_frame_witness :
  let self := mkRL 2 10 {[ "B" := [1] ]} in
  "B" ≠ "A" ∧
  request_logs (allowRequest self "A" 5).2 !! "B" = Some [1].
Proof.
  intros self. split; [done |].
  destruct (allowRequest_frame self "A" 5 "B") as [Hframe _]; [done |].
  rewrite Hframe. done.
Defined.

(** ** One client on its own *)

Section log_facts.
Variables m w : Z.

Lemma run_log_cons q t ts :
  run_log m w q (t :: ts) =
    ((t, (step_log m w q t).1) :: (run_log m w (step_log m w q t).2 ts).1,
     (run_log m w (step_log m w q t).2 ts).2).
Proof.
  change (run_log m w q (t :: ts)) with
    (let '(b, q') := step_log m w q t in
     let '(evs, q'') := run_log m w q' ts in ((t, b) :: evs, q'')).
  destruct (step_log m w q t) as [b q'].
  cbn [fst snd]. by destruct (run_log m w q' ts).
Qed.

Lemma run_log_app ts1 :
  ∀ q ts2,
    run_log m w q (ts1 ++ ts2) =
      ((run_log m w q ts1).1 ++ (run_log m w (run_log m w q ts1).2 ts2).1,
       (run_log m w (run_log m w q ts1).2 ts2).2).
Proof.
  induction ts1 as [|t ts1 IH]; intros q ts2.
  - simpl. by destruct (run_log m w q ts2).
  - rewrite <- app_comm_cons, !run_log_cons, IH. done.
Qed.

Lemma run_log_snoc q ts t :
  run_log m w q (ts ++ [t]) =
    let r := run_log m w q ts in
    (r.1 ++ [(t, (step_log m w r.2 t).1)], (step_log m w r.2 t).2).
Proof. rewrite run_log_app, run_log_cons. done. Qed.

Lemma step_log_length q t :
  Z.of_nat (length q) ≤ Z.max m 0 →
  Z.of_nat (length (step_log m w q t).2) ≤ Z.max m 0.
Proof.
  intros Hq. unfold step_log, check_valid. simpl.
  pose proof (expire_length w t q) as Hle.
  destruct (Z.ltb_spec (Z.of_nat (length (expire w t q))) m).
  - rewrite length_app. simpl. lia.
  - lia.
Qed.

Lemma run_log_length ts :
  ∀ q, Z.of_nat (length q) ≤ Z.max m 0 →
       Z.of_nat (length (run_log m w q ts).2) ≤ Z.max m 0.
Proof.
  induction ts as [|t ts IH]; intros q Hq; [done |].
  rewrite run_log_cons. simpl. by apply IH, step_log_length.
Qed.

Lemma admitted_snoc evs t b :
  admitted (evs ++ [(t, b)]) = admitted evs ++ (if b then [t] else []).
Proof.
  unfold admitted. rewrite filter_app, fmap_app. f_equal.
  by destruct b.
Qed.

Lemma in_window_narrow a : narrow w (in_window w a).
Proof. unfold narrow, in_window. lia. Qed.

Lemma in_window_right_narrow a : narrow w (in_window_right w a).
Proof. unfold narrow, in_window_right. lia. Qed.

Section count.
Context (P : Z → Prop) `{!∀ t, Decision (P t)}.

Lemma count_if_app l1 l2 :
  count_if P (l1 ++ l2) = count_if P l1 + count_if P l2.
Proof. unfold count_if. rewrite filter_app, length_app. lia. Qed.

Lemma count_if_length l : 0 ≤ count_if P l ≤ Z.of_nat (length l).
Proof. unfold count_if. pose proof (length_filter P l). lia. Qed.

(** A narrow set that holds [t] holds nothing that is stale at [t]. *)
Lemma count_if_stale t l :
  narrow w P → P t → Forall (stale w t) l → count_if P l = 0.
Proof.
  intros Hnarrow Ht Hl. unfold count_if.
  induction Hl as [|ts l Hts _ IH]; [done |].
  unfold stale in Hts.
  rewrite filter_cons_False; [exact IH |].
  intros Hin. specialize (Hnarrow t ts Ht Hin). lia.
Qed.

Lemma count_if_outside t : ¬ P t → count_if P [t] = 0.
Proof. intros Hout. unfold count_if. by rewrite filter_cons_False. Qed.
End count.

Lemma stale_later t t' ts : t ≤ t' → stale w t ts → stale w t' ts.
Proof. unfold stale. lia. Qed.
End log_facts.

(** ** Invariants of one client calling at non-decreasing times *)

Section log_invariants.
Variables m w : Z.

Lemma sorted_snoc (ts : list Z) t :
  Sorted Z.le (ts ++ [t]) → Sorted Z.le ts ∧ Forall (λ x, x ≤ t) ts.
Proof.
  intros Hs. apply Sorted_StronglySorted in Hs; [| apply _].
  apply StronglySorted_app in Hs as (Hle & Hts & _). split.
  - by apply StronglySorted_Sorted.
  - apply Forall_forall. intros x Hx. apply Hle; [done | by left].
Qed.

(** What has been admitted so far is the deque, preceded by the entries
    the expiry loop popped; those are stale at the time of the last
    call, and at any later time. *)
Lemma admitted_split ts :
  Sorted Z.le ts →
  ∃ dropped,
    admitted (run_log m w [] ts).1 = dropped ++ (run_log m w [] ts).2 ∧
    ∀ t', Forall (λ x, x ≤ t') ts → Forall (stale w t') dropped.
Proof.
  induction ts as [|t ts IH] using rev_ind; intros Hs.
  - exists []. split; [done | constructor].
  - apply sorted_snoc in Hs as [Hs Hle].
    destruct (IH Hs) as (dropped & Hadm & Hstale). clear IH.
    rewrite run_log_snoc. cbn [fst snd].
    set (q := (run_log m w [] ts).2) in *.
    destruct (expire_split w t q) as (pre & Hq & Hpre).
    exists (dropped ++ pre). split.
    + rewrite admitted_snoc, Hadm. unfold step_log. cbn [fst snd].
      rewrite Hq at 1. destruct (check_valid _ _).
      * by rewrite <- !app_assoc.
      * by rewrite app_nil_r, <- app_assoc.
    + intros t' Ht'. apply Forall_app in Ht' as [Hts Ht].
      rewrite Forall_singleton in Ht. apply Forall_app. split.
      * by apply Hstale.
      * eapply Forall_impl; [exact Hpre |].
        intros x. apply stale_later. exact Ht.
Qed.

(** No narrow set of times holds more than [m] admitted times (none at
    all when [m] is negative). *)
Lemma run_log_capacity (P : Z → Prop) `{!∀ t, Decision (P t)} ts :
  narrow w P → Sorted Z.le ts →
  count_if P (admitted (run_log m w [] ts).1) ≤ Z.max m 0.
Proof.
  intros Hnarrow. induction ts as [|t ts IH] using rev_ind; intros Hs.
  - change (count_if P (admitted (run_log m w [] []).1)) with 0. lia.
  - pose proof Hs as [Hs' Hle]%sorted_snoc.
    specialize (IH Hs').
    destruct (admitted_split ts Hs') as (dropped & Hadm & Hstale).
    specialize (Hstale t Hle).
    rewrite run_log_snoc. cbn [fst snd].
    rewrite admitted_snoc, count_if_app.
    unfold step_log. cbn [fst snd]. unfold check_valid.
    set (q := (run_log m w [] ts).2) in *.
    destruct (Z.ltb_spec (Z.of_nat (length (expire w t q))) m) as [Hroom|_].
    + destruct (decide (P t)) as [Hin | Hout].
      * destruct (expire_split w t q) as (pre & Hq & Hpre).
        rewrite Hadm, Hq, !count_if_app.
        rewrite (count_if_stale w P t dropped), (count_if_stale w P t pre)
          by done.
        pose proof (count_if_length P (expire w t q)).
        pose proof (count_if_length P [t]). simpl in *. lia.
      * rewrite count_if_outside by done. lia.
    + change (count_if P []) with 0. lia.
Qed.

(** The deque stays non-decreasing and holds call times only. *)
Lemma run_log_sorted ts :
  Sorted Z.le ts →
  StronglySorted Z.le (run_log m w [] ts).2 ∧
  ∀ x, x ∈ (run_log m w [] ts).2 → x ∈ ts.
Proof.
  induction ts as [|t ts IH] using rev_ind; intros Hs.
  - split; [constructor | done].
  - apply sorted_snoc in Hs as [Hs Hle].
    destruct (IH Hs) as [Hsorted Hsub]. clear IH.
    rewrite run_log_snoc. cbn [fst snd]. unfold step_log. cbn [fst snd].
    set (q := (run_log m w [] ts).2) in *.
    destruct (expire_split w t q) as (pre & Hq & _).
    assert (StronglySorted Z.le (expire w t q)) as Hexp.
    { rewrite Hq in Hsorted. by apply StronglySorted_app_1_r in Hsorted. }
    assert (∀ x, x ∈ expire w t q → x ∈ ts) as Hexp_sub.
    { intros x Hx. apply Hsub. rewrite Hq. apply elem_of_app. by right. }
    destruct (check_valid _ _).
    + split.
      * apply StronglySorted_app_2; [| done | repeat constructor].
        intros x1 x2 Hx1 ->%list_elem_of_singleton.
        rewrite Forall_forall in Hle. by apply Hle, Hexp_sub.
      * intros x [Hx | Hx]%elem_of_app; apply elem_of_app; [left | right];
          auto.
    + split; [done |]. intros x Hx. apply elem_of_app. left. auto.
Qed.

(** Right after a call at [t] nothing stale at [t] is left in the
    deque. *)
Lemma run_log_live ts t :
  0 < w → Sorted Z.le (ts ++ [t]) →
  Forall (λ x, t - x < w) (run_log m w [] (ts ++ [t])).2.
Proof.
  intros Hw [Hs _]%sorted_snoc.
  destruct (run_log_sorted ts Hs) as [Hsorted _].
  rewrite run_log_snoc. cbn [fst snd]. unfold step_log. cbn [fst snd].
  pose proof (expire_sorted_live w t _ Hsorted) as Hlive.
  destruct (check_valid _ _); [| done].
  apply Forall_app. split; [done |].
  apply Forall_singleton. lia.
Qed.
End log_invariants.

(** ** Sequences of calls *)

Section run_facts.
Context {K : Type} `{Countable K}.
Implicit Types (self : FixedWindowRateLimiter K) (c : K) (t : Z).
Implicit Types (calls : list (K * Z)).

Lemma run_cons self c t calls :
  run self ((c, t) :: calls) =
    ((c, t, (allowRequest self c t).1) :: (run (allowRequest self c t).2 calls).1,
     (run (allowRequest self c t).2 calls).2).
Proof.
  change (run self ((c, t) :: calls)) with
    (let '(b, self') := allowRequest self c t in
     let '(evs, self'') := run self' calls in ((c, t, b) :: evs, self'')).
  destruct (allowRequest self c t) as [b self'].
  cbn [fst snd]. by destruct (run self' calls).
Qed.

Lemma run_app calls1 :
  ∀ self calls2,
    run self (calls1 ++ calls2) =
      ((run self calls1).1 ++ (run (run self calls1).2 calls2).1,
       (run (run self calls1).2 calls2).2).
Proof.
  induction calls1 as [|[c t] calls1 IH]; intros self calls2.
  - change (run self []) with (@nil (K * Z * bool), self).
    simpl. by destruct (run self calls2).
  - rewrite <- app_comm_cons, !run_cons, IH. done.
Qed.

Lemma times_of_cons c c0 t calls :
  times_of c ((c0, t) :: calls) =
    if decide (c0 = c) then t :: times_of c calls else times_of c calls.
Proof. unfold times_of. rewrite filter_cons. simpl. by case_decide. Qed.

Lemma events_of_cons c c0 t b evs :
  events_of c ((c0, t, b) :: evs) =
    if decide (c0 = c) then (t, b) :: events_of c evs else events_of c evs.
Proof. unfold events_of. rewrite filter_cons. simpl. by case_decide. Qed.

(** Seen from one client, a run of the limiter is the run of that
    client's deque over that client's calls: the calls of the others
    change neither its verdicts nor its log. *)
Lemma run_project c calls :
  ∀ self,
    let r := run self calls in
    let r' := run_log (max_requests self) (window_size self)
                      (log_of self c) (times_of c calls) in
    events_of c r.1 = r'.1 ∧ log_of r.2 c = r'.2 ∧
    max_requests r.2 = max_requests self ∧
    window_size r.2 = window_size self.
Proof.
  induction calls as [|[c0 t] calls IH]; intros self; [done |].
  cbn zeta. rewrite run_cons, times_of_cons. cbn [fst snd].
  rewrite events_of_cons.
  destruct (IH (allowRequest self c0 t).2) as (Hev & Hlog & Hm & Hw).
  rewrite allowRequest_max, allowRequest_window in *.
  rewrite Hev, Hlog, Hm, Hw.
  destruct (decide (c0 = c)) as [-> | Hne].
  - rewrite run_log_cons, allowRequest_verdict, allowRequest_log. done.
  - by rewrite allowRequest_log_ne.
Qed.

Lemma new_log_of m w c : log_of (new (K:=K) m w) c = [].
Proof. done. Qed.

Lemma run_new_events m w c calls :
  events_of c (run (new m w) calls).1 = (run_log m w [] (times_of c calls)).1.
Proof. by destruct (run_project c calls (new m w)) as (-> & _). Qed.

Lemma run_new_log m w c calls :
  log_of (run (new m w) calls).2 c = (run_log m w [] (times_of c calls)).2.
Proof. by destruct (run_project c calls (new m w)) as (_ & -> & _). Qed.

Lemma run_config calls :
  ∀ self,
    max_requests (run self calls).2 = max_requests self ∧
    window_size (run self calls).2 = window_size self.
Proof.
  induction calls as [|[c t] calls IH]; intros self; [done |].
  rewrite run_cons. cbn [fst snd].
  destruct (IH (allowRequest self c t).2) as [-> ->].
  by rewrite allowRequest_max, allowRequest_window.
Qed.

Lemma reachable_config m w self :
  reachable m w self → max_requests self = m ∧ window_size self = w.
Proof. intros [calls <-]. apply (run_config calls (new m w)). Qed.

Lemma reachable_length m w self c :
  reachable m w self → Z.of_nat (length (log_of self c)) ≤ Z.max m 0.
Proof.
  intros [calls <-]. rewrite run_new_log.
  apply run_log_length. simpl. lia.
Qed.

Lemma times_of_snoc c calls t :
  times_of c (calls ++ [(c, t)]) = times_of c calls ++ [t].
Proof.
  unfold times_of. rewrite filter_app, fmap_app. f_equal.
  rewrite filter_cons_True by done. done.
Qed.
End run_facts.

(** ** Claims about sequences of calls *)

Section run_claims.
Context {K : Type} `{Countable K}.
Implicit Types (self : FixedWindowRateLimiter K) (c : K) (t : Z).
Implicit Types (calls : list (K * Z)).

(** C2. Capacity. On a fresh limiter, for any sequence of calls in which
    client [c]'s timestamps are non-decreasing, and any half-open window
    of length [window_size], [[a, a + window_size)] or
    [(a, a + window_size]], the number of [c]'s admitted calls whose
    timestamp lies in the window is at most [max max_requests 0]: at most
    [max_requests] whenever that is not negative (the specification takes
    it positive). *)
Theorem capacity_invariant (m w : Z) c calls (a : Z) :
  Sorted Z.le (times_of c calls) →
  let adm := admitted (events_of c (run (new m w) calls).1) in
  count_in w a adm ≤ Z.max m 0 ∧
  count_in_right w a adm ≤ Z.max m 0 ∧
  (0 ≤ m → count_in w a adm ≤ m ∧ count_in_right w a adm ≤ m).
Proof.
  intros Hs adm. subst adm. rewrite run_new_events.
  pose proof (run_log_capacity m w (in_window w a) (times_of c calls)
                (in_window_narrow w a) Hs).
  pose proof (run_log_capacity m w (in_window_right w a) (times_of c calls)
                (in_window_right_narrow w a) Hs).
  unfold count_in, count_in_right. lia.
Qed.

(** C5. Independence. Two runs that start from instances with the same
    configuration and the same log for client [c] (two fresh instances,
    for one), over call sequences with the same calls for [c] in the same
    order, give [c] the same verdicts, call by call, and leave [c] the
    same log, whatever the other clients' calls are. *)
Theorem client_independence c self1 self2 calls1 calls2 :
  max_requests self1 = max_requests self2 →
  window_size self1 = window_size self2 →
  log_of self1 c = log_of self2 c →
  filter (λ x, x.1 = c) calls1 = filter (λ x, x.1 = c) calls2 →
  events_of c (run self1 calls1).1 = events_of c (run self2 calls2).1 ∧
  log_of (run self1 calls1).2 c = log_of (run self2 calls2).2 c.
Proof.
  intros Hm Hw Hlog Hcalls.
  destruct (run_project c calls1 self1) as (-> & -> & _).
  destruct (run_project c calls2 self2) as (-> & -> & _).
  unfold times_of. rewrite Hm, Hw, Hlog, Hcalls. done.
Qed.

(** C7. Freshness. With [0 < window_size] (the specification takes it
    positive), if client [c]'s timestamps are non-decreasing up to and
    including a call at [t], then right after that call every entry [ts]
    of [c]'s log has [t - ts < window_size]: none is stale. *)
Theorem log_live_after_call (m w : Z) c calls t :
  0 < w →
  Sorted Z.le (times_of c (calls ++ [(c, t)])) →
  Forall (λ ts, t - ts < w ∧ ¬ stale w t ts)
         (log_of (run (new m w) (calls ++ [(c, t)])).2 c).
Proof.
  intros Hw Hs. rewrite run_new_log. rewrite times_of_snoc in *.
  eapply Forall_impl; [by apply run_log_live |].
  intros ts Hts. unfold stale. simpl in Hts. lia.
Qed.

(** C8. Bounded logs. In every state reachable from a fresh instance,
    every client's log, created or not, has at most
    [max max_requests 0] entries. On such a state the expiry loop never
    lengthens the log, and a call lengthens what expiry left only when
    that is strictly shorter than [max_requests]. *)
Theorem log_length_bounded (m w : Z) self c :
  reachable m w self →
  Z.of_nat (length (log_of self c)) ≤ Z.max m 0 ∧
  (∀ q, request_logs self !! c = Some q → Z.of_nat (length q) ≤ Z.max m 0) ∧
  ∀ t,
    (length (expire w t (log_of self c)) ≤ length (log_of self c))%nat ∧
    ((length (expire w t (log_of self c)) <
        length (log_of (allowRequest self c t).2 c))%nat →
     Z.of_nat (length (expire w t (log_of self c))) < m).
Proof.
  intros Hreach.
  pose proof (reachable_length m w self c Hreach) as Hlen.
  destruct (reachable_config m w self Hreach) as [Hm Hw].
  split_and!; [done | |].
  - intros q Hq. unfold log_of in Hlen. by rewrite Hq in Hlen.
  - intros t. split; [apply expire_length |].
    rewrite allowRequest_log, Hm, Hw. unfold step_log, check_valid.
    cbn [fst snd].
    destruct (Z.ltb_spec (Z.of_nat (length (expire w t (log_of self c)))) m);
      [done | lia].
Qed.

(** On any instance, reachable or not, a denied call runs the expiry
    loop and appends nothing: [c]'s log afterwards is its log before with
    the stale prefix removed. A later call of the same client returns
    [true] once the entries left have aged out, provided
    [0 < max_requests]. *)
Lemma denied_still_expires self c t :
  (allowRequest self c t).1 = false →
  log_of (allowRequest self c t).2 c =
    expire (window_size self) t (log_of self c) ∧
  (∃ pre, log_of self c = pre ++ log_of (allowRequest self c t).2 c ∧
          Forall (stale (window_size self) t) pre) ∧
  ∀ t', 0 < max_requests self →
        Forall (stale (window_size self) t')
               (log_of (allowRequest self c t).2 c) →
        (allowRequest (allowRequest self c t).2 c t').1 = true.
Proof.
  intros Hdenied.
  assert (log_of (allowRequest self c t).2 c =
            expire (window_size self) t (log_of self c)) as Hlog.
  { rewrite allowRequest_log. rewrite allowRequest_verdict in Hdenied.
    unfold step_log. cbn [fst snd]. by rewrite Hdenied. }
  split_and!; [done | |].
  - rewrite Hlog. apply expire_split.
  - intros t' Hm Hold.
    rewrite allowRequest_verdict, allowRequest_max, allowRequest_window.
    rewrite <- (app_nil_r (log_of _ c)).
    rewrite expire_unique; [| done | done].
    unfold check_valid. apply Z.ltb_lt. simpl. lia.
Qed.

(** On states the limiter can be in, with [1 <= max_requests], a denied
    call finds no stale prefix to remove,
    so the client's log is the same before and after. *)
Lemma denied_reachable_unchanged (m w : Z) self c t :
  1 ≤ m → reachable m w self →
  (allowRequest self c t).1 = false →
  log_of (allowRequest self c t).2 c = log_of self c ∧
  request_logs (allowRequest self c t).2 = request_logs self.
Proof.
  intros Hm Hreach Hdenied.
  pose proof (reachable_length m w self c Hreach) as Hlen.
  destruct (reachable_config m w self Hreach) as [Hm' Hw'].
  pose proof Hdenied as Hv. rewrite allowRequest_verdict, Hm', Hw' in Hv.
  unfold check_valid in Hv. apply Z.ltb_ge in Hv.
  pose proof (expire_length w t (log_of self c)) as Hle.
  assert (expire w t (log_of self c) = log_of self c) as Hsame.
  { apply expire_same_length. lia. }
  assert (log_of (allowRequest self c t).2 c = log_of self c) as Hlog.
  { rewrite allowRequest_log, Hm', Hw'. unfold step_log, check_valid.
    cbn [fst snd]. destruct (Z.ltb_spec (Z.of_nat (length (expire w t (log_of self c)))) m);
      [lia | done]. }
  split; [done |].
  apply map_eq. intros c'. destruct (decide (c' = c)) as [-> | Hne].
  - rewrite allowRequest_lookup, <- allowRequest_log, Hlog.
    unfold log_of in *. destruct (request_logs self !! c) as [q|] eqn:Hq;
      [done |]. simpl in Hv. lia.
  - by apply allowRequest_lookup_ne.
Qed.
End run_claims.

(** ** The module's own tests, and witnesses *)

(** [test_basic_allow_and_deny], with the integer [1] as client. *)
Example test_basic_allow_and_deny :
  verdicts (run (new 2 2) [(1, 1); (1, 2); (1, 2); (1, 3)]).1 =
    [true; true; false; true].
Proof. vm_compute. done. Qed.

(** [test_cleanup_after_window] *)
Example test_cleanup_after_window :
  verdicts (run (new 2 5) [("A", 1); ("A", 2); ("A", 7)]).1 =
    [true; true; true].
Proof. vm_compute. done. Qed.

(** [test_multiple_clients] *)
Example test_multiple_clients :
  verdicts (run (new 1 2) [("A", 1); ("B", 1); ("A", 1); ("B", 1)]).1 =
    [true; true; false; false].
Proof. vm_compute. done. Qed.

(** The capacity bound is about half-open windows: in the run of
    [test_exact_window_boundary] the closed interval [[1, 11]], of length
    10, holds all three admitted calls while [max_requests] is 2. *)
Example closed_interval_exceeds :
  let evs := (run (new 2 10) [("A", 1); ("A", 2); ("A", 11)]).1 in
  admitted (events_of "A" evs) = [1; 2; 11] ∧
  count_closed 10 1 (admitted (events_of "A" evs)) = 3 ∧
  count_in 10 1 (admitted (events_of "A" evs)) = 2 ∧
  count_in_right 10 1 (admitted (events_of "A" evs)) = 2.
Proof. vm_compute. done. Qed.

(** A denied call can still change the mapping: with [max_requests = 0]
    the first call of a client is denied and creates the client's entry,
    empty. *)
Example denied_creates_entry :
  let r := allowRequest (new 0 10) "A" 1 in
  r.1 = false ∧
  request_logs (new (K:=string) 0 10) !! "A" = None ∧
  request_logs r.2 !! "A" = Some [].
Proof. vm_compute. done. Qed.

(** On an instance whose log is longer than [max_requests] (no sequence
    of calls produces one, see [reachable_length]) a denied call pops the
    stale head. *)
Example denied_pops_stale :
  let r := allowRequest (mkRL 1 10 {[ "A" := [1; 20] ]}) "A" 20 in
  r.1 = false ∧ log_of r.2 "A" = [20].
Proof. vm_compute. done. Qed.

(** A witness of C2: the window [[2, 12)] in the boundary scenario. *)
Lemma capacity_invariant_witness :
  let calls := [("A", 1); ("A", 2); ("A", 2); ("A", 11)] in
  Sorted Z.le (times_of "A" calls) ∧
  count_in 10 2 (admitted (events_of "A" (run (new 2 10) calls).1)) ≤ 2.
Proof.
  intros calls.
  assert (Sorted Z.le (times_of "A" calls)) as Hs.
  { change (times_of "A" calls) with [1; 2; 2; 11].
    repeat constructor; lia. }
  split; [exact Hs |].
  destruct (capacity_invariant 2 10 "A" calls 2 Hs) as (_ & _ & Hcap).
  apply Hcap. lia.
Defined.

(** A witness of C5: client ["B"] calls in one run and not in the other. *)
Lemma client_independence_witness :
  let calls1 := [("A", 1); ("B", 1); ("A", 1)] in
  let calls2 := [("A", 1); ("A", 1)] in
  filter (λ x, x.1 = "A") calls1 = filter (λ x, x.1 = "A") calls2 ∧
  events_of "A" (run (new 1 2) calls1).1 =
    events_of "A" (run (new 1 2) calls2).1.
Proof.
  intros calls1 calls2.
  assert (filter (λ x, x.1 = "A") calls1 = filter (λ x, x.1 = "A") calls2)
    as Hsame by (vm_compute; reflexivity).
  split; [exact Hsame |].
  apply (client_independence "A" (new 1 2) (new 1 2) calls1 calls2);
    [reflexivity | reflexivity | reflexivity | exact Hsame].
Defined.

(** A witness of C7: the call at 11 of the boundary scenario. *)
Lemma log_live_after_call_witness :
  let calls := [("A", 1); ("A", 2); ("A", 2)] in
  0 < 10 ∧ Sorted Z.le (times_of "A" (calls ++ [("A", 11)])) ∧
  Forall (λ ts, 11 - ts < 10 ∧ ¬ stale 10 11 ts)
         (log_of (run (new 2 10) (calls ++ [("A", 11)])).2 "A").
Proof.
  intros calls.
  assert (Sorted Z.le (times_of "A" (calls ++ [("A", 11)]))) as Hs.
  { change (times_of "A" (calls ++ [("A", 11)])) with [1; 2; 2; 11].
    repeat constructor; lia. }
  split_and!; [lia | exact Hs |].
  apply (log_live_after_call 2 10 "A" calls 11); [lia | exact Hs].
Defined.

(** A witness of C8: the state after three calls of the boundary
    scenario. *)
Lemma log_length_bounded_witness :
  let self := (run (new 2 10) [("A", 1); ("A", 2); ("A", 2)]).2 in
  reachable 2 10 self ∧ Z.of_nat (length (log_of self "A")) ≤ Z.max 2 0.
Proof.
  intros self.
  assert (reachable 2 10 self) as Hreach.
  { exists [("A", 1); ("A", 2); ("A", 2)]. reflexivity. }
  split; [exact Hreach |].
  exact (proj1 (log_length_bounded 2 10 self "A" Hreach)).
Defined.

(** * Further properties of the code *)

(** ** More on the expiry loop *)

Section expire_more.
Variable w : Z.

(** Later, the loop pops at least as much. *)
Lemma expire_later t t' q :
  t ≤ t' → expire w t' q `suffix_of` expire w t q.
Proof.
  intros Hle. induction q as [|ts q IH]; [done |].
  destruct (Z_lt_ge_dec (t - ts) w) as [Hlive | Hold].
  - rewrite (expire_cons_live w t) by done. apply expire_suffix.
  - rewrite !expire_cons_expired by lia. exact IH.
Qed.

(** A deque of stale entries is emptied. *)
Lemma expire_all_stale t q : Forall (stale w t) q → expire w t q = [].
Proof.
  intros Hq. rewrite <- (app_nil_r q). by apply expire_unique.
Qed.

(** Moving the clock and the entries together changes nothing. *)
Lemma expire_shift d t q :
  expire w (t + d) (shift_log d q) = shift_log d (expire w t q).
Proof.
  induction q as [|ts q IH]; [done |].
  change (shift_log d (ts :: q)) with ((ts + d) :: shift_log d q).
  destruct (Z_lt_ge_dec (t - ts) w) as [Hlive | Hold].
  - rewrite !expire_cons_live by lia. done.
  - rewrite !expire_cons_expired by lia. exact IH.
Qed.
End expire_more.

(** ** More on one call *)

Section call_more.
Context {K : Type} `{Countable K}.
Implicit Types (self : FixedWindowRateLimiter K) (c : K) (t : Z).

Lemma limiter_eq self1 self2 :
  max_requests self1 = max_requests self2 →
  window_size self1 = window_size self2 →
  request_logs self1 = request_logs self2 →
  self1 = self2.
Proof. destruct self1, self2. simpl. by intros -> -> ->. Qed.

Lemma allowRequest_logs self c t :
  request_logs (allowRequest self c t).2 =
    <[c := (step_log (max_requests self) (window_size self) (log_of self c) t).2]>
      (request_logs self).
Proof. by rewrite allowRequest_step. Qed.

(** X10. Retrying a denied request at the same timestamp is denied again
    and leaves the instance exactly as the first denial left it, on any
    instance. *)
Theorem denied_repeat_unchanged self c t :
  (allowRequest self c t).1 = false →
  allowRequest (allowRequest self c t).2 c t = (false, (allowRequest self c t).2).
Proof.
  intros Hdenied.
  assert (log_of (allowRequest self c t).2 c =
            expire (window_size self) t (log_of self c)) as Hlog.
  { rewrite allowRequest_log. rewrite allowRequest_verdict in Hdenied.
    unfold step_log. cbn [fst snd]. by rewrite Hdenied. }
  assert ((allowRequest (allowRequest self c t).2 c t).1 = false) as Hagain.
  { rewrite allowRequest_verdict, allowRequest_max, allowRequest_window, Hlog.
    rewrite expire_idemp. by rewrite <- allowRequest_verdict. }
  rewrite (surjective_pairing (allowRequest (allowRequest self c t).2 c t)).
  f_equal; [exact Hagain |].
  apply limiter_eq.
  - by rewrite !allowRequest_max.
  - by rewrite !allowRequest_window.
  - rewrite (allowRequest_logs (allowRequest self c t).2).
    rewrite allowRequest_max, allowRequest_window, Hlog.
    unfold step_log. cbn [fst snd]. rewrite expire_idemp.
    rewrite allowRequest_verdict, allowRequest_max, allowRequest_window,
      Hlog, expire_idemp in Hagain.
    rewrite Hagain. apply insert_id.
    rewrite <- Hlog. unfold log_of. by rewrite allowRequest_lookup.
Qed.

(** X11. Waiting never hurts: if a request would be admitted at [t] on
    some instance, the same request is admitted on that instance at any
    later time [t']. *)
Theorem admission_monotone_in_time self c t t' :
  t ≤ t' →
  (allowRequest self c t).1 = true →
  (allowRequest self c t').1 = true.
Proof.
  intros Hle. rewrite !allowRequest_verdict. unfold check_valid.
  intros Hroom%Z.ltb_lt. apply Z.ltb_lt.
  pose proof (suffix_length _ _
    (expire_later (window_size self) t t' (log_of self c) Hle)). lia.
Qed.

(** X15. Calls of two different clients commute: made in either order
    they get the same verdicts and leave the same instance. *)
Theorem distinct_clients_commute self c1 t1 c2 t2 :
  c1 ≠ c2 →
  let a := allowRequest self c1 t1 in
  let b := allowRequest a.2 c2 t2 in
  let a' := allowRequest self c2 t2 in
  let b' := allowRequest a'.2 c1 t1 in
  a.1 = b'.1 ∧ b.1 = a'.1 ∧ b.2 = b'.2.
Proof.
  intros Hne a b a' b'. subst a b a' b'.
  assert (log_of (allowRequest self c1 t1).2 c2 = log_of self c2) as H12
    by (by apply allowRequest_log_ne).
  assert (log_of (allowRequest self c2 t2).2 c1 = log_of self c1) as H21
    by (by apply allowRequest_log_ne).
  split_and!.
  - by rewrite !allowRequest_verdict, allowRequest_max, allowRequest_window, H21.
  - by rewrite !allowRequest_verdict, allowRequest_max, allowRequest_window, H12.
  - apply limiter_eq.
    + by rewrite !allowRequest_max.
    + by rewrite !allowRequest_window.
    + rewrite (allowRequest_logs (allowRequest self c1 t1).2),
        (allowRequest_logs (allowRequest self c2 t2).2).
      rewrite !allowRequest_max, !allowRequest_window, H12, H21.
      rewrite !allowRequest_logs. by apply insert_insert_ne.
Qed.
End call_more.

(** ** More on one client on its own *)

Section filter_facts.
Context {A : Type} (P : A → Prop) `{!∀ x, Decision (P x)}.

Lemma filter_none (l : list A) : Forall (λ x, ¬ P x) l → filter P l = [].
Proof.
  induction 1 as [|x l Hx _ IH]; [done |].
  by rewrite filter_cons_False.
Qed.

Lemma filter_all (l : list A) : Forall P l → filter P l = l.
Proof.
  induction 1 as [|x l Hx _ IH]; [done |].
  rewrite filter_cons_True by done. by rewrite IH.
Qed.
End filter_facts.

Section log_more.
Variables m w : Z.

(** What has been admitted ends with the deque, whatever the order of the
    timestamps. *)
Lemma run_log_suffix ts :
  (run_log m w [] ts).2 `suffix_of` admitted (run_log m w [] ts).1.
Proof.
  induction ts as [|t ts [dropped Hadm]] using rev_ind.
  - by exists [].
  - rewrite run_log_snoc. cbn [fst snd].
    set (q := (run_log m w [] ts).2) in *.
    destruct (expire_split w t q) as (pre & Hq & _).
    exists (dropped ++ pre).
    rewrite admitted_snoc, Hadm. unfold step_log. cbn [fst snd].
    rewrite Hq at 1. destruct (check_valid _ _).
    + by rewrite <- !app_assoc.
    + by rewrite app_nil_r, <- app_assoc.
Qed.

(** Under non-decreasing timestamps, what the expiry loop leaves at [t] is
    what has been admitted in the window [(t - w, t]]. *)
Lemma run_log_window ts t :
  Sorted Z.le (ts ++ [t]) →
  expire w t (run_log m w [] ts).2 =
    filter (in_window_right w (t - w)) (admitted (run_log m w [] ts).1).
Proof.
  intros [Hs Hle]%sorted_snoc.
  destruct (admitted_split m w ts Hs) as (dropped & Hadm & Hstale).
  specialize (Hstale t Hle).
  destruct (run_log_sorted m w ts Hs) as [Hsorted Hsub].
  pose proof (expire_sorted_live w t _ Hsorted) as Hlive.
  set (q := (run_log m w [] ts).2) in *.
  destruct (expire_split w t q) as (pre & Hq & Hpre).
  rewrite Hadm. rewrite Hq at 2. rewrite !filter_app.
  rewrite (filter_none _ dropped), (filter_none _ pre), filter_all; [done | | |].
  - apply Forall_forall. intros x Hx.
    rewrite Forall_forall in Hlive, Hle. specialize (Hlive x Hx).
    assert (x ≤ t) as Hxt.
    { apply Hle, Hsub. rewrite Hq. apply elem_of_app. by right. }
    unfold in_window_right. simpl in Hlive. lia.
  - eapply Forall_impl; [exact Hpre |].
    unfold stale, in_window_right. intros x Hx. lia.
  - eapply Forall_impl; [exact Hstale |].
    unfold stale, in_window_right. intros x Hx. lia.
Qed.

(** While the deque and the calls to come together fit in [m], every
    call is admitted. *)
Lemma run_log_burst ts :
  ∀ q (n : nat),
    Z.of_nat (length q + n) ≤ m →
    Forall (λ e, e.2 = true) (take n (run_log m w q ts).1).
Proof.
  induction ts as [|t ts IH]; intros q n Hfit.
  - change (run_log m w q []) with (@nil (Z * bool), q).
    cbn [fst]. rewrite take_nil. constructor.
  - destruct n as [|n]; [constructor |].
    rewrite run_log_cons. cbn [fst snd take].
    pose proof (expire_length w t q) as Hexp.
    assert ((step_log m w q t).1 = true) as Hadm.
    { unfold step_log, check_valid. cbn [fst]. apply Z.ltb_lt. lia. }
    constructor; [exact Hadm |].
    apply IH. unfold step_log in *. cbn [fst snd] in *. rewrite Hadm.
    rewrite length_app. simpl. lia.
Qed.

(** With [m <= 0] no call is admitted and an empty deque stays empty. *)
Lemma run_log_closed ts :
  m ≤ 0 →
  Forall (λ e, e.2 = false) (run_log m w [] ts).1 ∧ (run_log m w [] ts).2 = [].
Proof.
  intros Hm. induction ts as [|t ts [IHev IHq]] using rev_ind.
  - split; [constructor | done].
  - rewrite run_log_snoc. cbn [fst snd]. rewrite IHq.
    unfold step_log, check_valid. cbn [fst snd expire length].
    destruct (Z.ltb_spec (Z.of_nat 0) m) as [Hlt | _]; [lia |].
    split; [| done].
    apply Forall_app. split; [exact IHev | by repeat constructor].
Qed.

(** With [w <= 0] and [1 <= m], non-decreasing calls are all admitted and
    the deque holds the last call only. *)
Lemma run_log_open ts :
  w ≤ 0 → 1 ≤ m → Sorted Z.le ts →
  Forall (λ e, e.2 = true) (run_log m w [] ts).1 ∧
  (run_log m w [] ts).2 = option_list (last ts).
Proof.
  intros Hw Hm. induction ts as [|t ts IH] using rev_ind; intros Hs.
  - split; [constructor | done].
  - apply sorted_snoc in Hs as [Hs Hle].
    destruct (IH Hs) as [IHev _]. clear IH.
    destruct (run_log_sorted m w ts Hs) as [_ Hsub].
    rewrite run_log_snoc. cbn [fst snd].
    assert (expire w t (run_log m w [] ts).2 = []) as Hexp.
    { apply expire_all_stale, Forall_forall. intros x Hx.
      rewrite Forall_forall in Hle. specialize (Hle x (Hsub x Hx)).
      unfold stale. simpl in Hle. lia. }
    unfold step_log, check_valid. cbn [fst snd]. rewrite Hexp.
    cbn [length]. destruct (Z.ltb_spec (Z.of_nat 0) m) as [_ | Hge]; [| lia].
    split.
    + apply Forall_app. split; [exact IHev | by repeat constructor].
    + by rewrite last_snoc.
Qed.
End log_more.

(** ** More on sequences of calls *)

Section run_more.
Context {K : Type} `{Countable K}.
Implicit Types (self : FixedWindowRateLimiter K) (c : K) (t : Z).
Implicit Types (calls : list (K * Z)).

Lemma run_snoc self calls c t :
  run self (calls ++ [(c, t)]) =
    ((run self calls).1 ++ [(c, t, (allowRequest (run self calls).2 c t).1)],
     (allowRequest (run self calls).2 c t).2).
Proof. rewrite run_app, run_cons. done. Qed.

Lemma run_new_verdict (m w : Z) calls c t :
  (allowRequest (run (new m w) calls).2 c t).1 =
    check_valid m (expire w t (run_log m w [] (times_of c calls)).2).
Proof.
  rewrite allowRequest_verdict, run_new_log.
  by destruct (run_config calls (new m w)) as [-> ->].
Qed.

Lemma run_closed calls :
  ∀ self, max_requests self ≤ 0 →
          Forall (λ e, e.2 = false) (run self calls).1.
Proof.
  induction calls as [|[c t] calls IH]; intros self Hm; [constructor |].
  rewrite run_cons. cbn [fst]. constructor.
  - cbn [snd]. rewrite allowRequest_verdict. unfold check_valid.
    apply Z.ltb_ge. lia.
  - apply IH. by rewrite allowRequest_max.
Qed.

(** X1. A limiter built with [max_requests <= 0] admits nothing: every
    call of every run is denied, and every client's log stays empty. *)
Theorem nonpositive_max_admits_nothing (m w : Z) calls :
  m ≤ 0 →
  Forall (λ e, e.2 = false) (run (new m w) calls).1 ∧
  ∀ c, log_of (run (new m w) calls).2 c = [].
Proof.
  intros Hm. split; [by apply run_closed |].
  intros c. rewrite run_new_log. by apply run_log_closed.
Qed.

(** X2. The first [max_requests] calls of a client on a fresh limiter are
    all admitted, whatever their timestamps, their order, and the calls of
    other clients in between. *)
Theorem first_calls_admitted (m w : Z) c calls :
  Forall (λ e, e.2 = true)
         (take (Z.to_nat m) (events_of c (run (new m w) calls).1)).
Proof.
  rewrite run_new_events.
  destruct (Z_lt_ge_dec m 0) as [Hneg | Hpos].
  - replace (Z.to_nat m) with 0%nat by lia. constructor.
  - apply run_log_burst. simpl. lia.
Qed.

(** X3. Under non-decreasing timestamps for client [c], a call at [t]
    is admitted exactly when fewer than [max_requests] of [c]'s earlier
    admitted calls have their timestamp in [(t - window_size, t]]. *)
Theorem verdict_iff_window_count (m w : Z) c calls t :
  Sorted Z.le (times_of c (calls ++ [(c, t)])) →
  (allowRequest (run (new m w) calls).2 c t).1 = true ↔
  count_in_right w (t - w) (admitted (events_of c (run (new m w) calls).1)) < m.
Proof.
  intros Hs. rewrite times_of_snoc in Hs.
  rewrite run_new_verdict, run_new_events, run_log_window by done.
  unfold check_valid, count_in_right, count_if. apply Z.ltb_lt.
Qed.

(** X4. Under non-decreasing timestamps for client [c] and
    [0 < window_size], right after a call at [t] the log of [c] is
    exactly the admitted timestamps of [c] that lie in
    [(t - window_size, t]], in order: nothing stale is kept and nothing
    live is lost. *)
Theorem log_is_window_of_admitted (m w : Z) c calls t :
  0 < w →
  Sorted Z.le (times_of c (calls ++ [(c, t)])) →
  log_of (run (new m w) (calls ++ [(c, t)])).2 c =
    filter (in_window_right w (t - w))
           (admitted (events_of c (run (new m w) (calls ++ [(c, t)])).1)).
Proof.
  intros Hw Hs. rewrite run_new_log, run_new_events.
  rewrite times_of_snoc in *. rewrite run_log_snoc. cbn [fst snd].
  rewrite admitted_snoc, filter_app, <- run_log_window by done.
  unfold step_log. cbn [fst snd]. destruct (check_valid _ _).
  - rewrite filter_cons_True; [done |]. unfold in_window_right. lia.
  - by rewrite app_nil_r.
Qed.

(** X5. Under non-decreasing timestamps for client [c], the log of [c]
    is non-decreasing from head to tail and holds timestamps of [c]'s own
    calls only. *)
Theorem log_sorted_call_times (m w : Z) c calls :
  Sorted Z.le (times_of c calls) →
  StronglySorted Z.le (log_of (run (new m w) calls).2 c) ∧
  ∀ ts, ts ∈ log_of (run (new m w) calls).2 c → ts ∈ times_of c calls.
Proof. intros Hs. rewrite run_new_log. by apply run_log_sorted. Qed.

(** X6. Whatever the order of the timestamps, the log of a client is a
    suffix of the sequence of that client's admitted timestamps: it holds
    admitted requests only, in the order of their admission, and what is
    missing was removed from the front. *)
Theorem log_suffix_of_admitted (m w : Z) c calls :
  log_of (run (new m w) calls).2 c
    `suffix_of` admitted (events_of c (run (new m w) calls).1).
Proof. rewrite run_new_log, run_new_events. apply run_log_suffix. Qed.

(** X14. With [window_size <= 0] and [1 <= max_requests] the limiter
    limits nothing: under non-decreasing timestamps every call of the
    client is admitted, and its log holds its last call only. *)
Theorem nonpositive_window_admits_all (m w : Z) c calls :
  w ≤ 0 → 1 ≤ m →
  Sorted Z.le (times_of c calls) →
  Forall (λ e, e.2 = true) (events_of c (run (new m w) calls).1) ∧
  log_of (run (new m w) calls).2 c = option_list (last (times_of c calls)).
Proof.
  intros Hw Hm Hs. rewrite run_new_events, run_new_log.
  by apply run_log_open.
Qed.
End run_more.

(** ** Denials on reachable states *)

Section denial.
Context {K : Type} `{Countable K}.
Implicit Types (self : FixedWindowRateLimiter K) (c : K) (t : Z).

(** On a reachable state with [1 <= m], a denied client has a full log
    whose oldest entry is still inside the window. *)
Lemma reachable_denied_inv (m w : Z) self c t :
  1 ≤ m → reachable m w self →
  (allowRequest self c t).1 = false →
  ∃ oldest rest,
    log_of self c = oldest :: rest ∧ t - oldest < w ∧
    Z.of_nat (length (log_of self c)) = m.
Proof.
  intros Hm Hreach Hdenied.
  pose proof (reachable_length m w self c Hreach) as Hlen.
  destruct (reachable_config m w self Hreach) as [Hm' Hw'].
  rewrite allowRequest_verdict, Hm', Hw' in Hdenied.
  unfold check_valid in Hdenied. apply Z.ltb_ge in Hdenied.
  pose proof (expire_length w t (log_of self c)) as Hle.
  assert (expire w t (log_of self c) = log_of self c) as Hsame
    by (apply expire_same_length; lia).
  destruct (log_of self c) as [|oldest rest] eqn:Hlog.
  { simpl in Hdenied. lia. }
  exists oldest, rest. split_and!; [done | | lia].
  apply (expire_head w t oldest (oldest :: rest)). by rewrite Hsame.
Qed.

Lemma denied_reachable_same (m w : Z) self c t :
  1 ≤ m → reachable m w self →
  (allowRequest self c t).1 = false →
  (allowRequest self c t).2 = self.
Proof.
  intros Hm Hreach Hdenied.
  destruct (denied_reachable_unchanged m w self c t Hm Hreach Hdenied)
    as [_ Hlogs].
  apply limiter_eq;
    [apply allowRequest_max | apply allowRequest_window | exact Hlogs].
Qed.

(** X7. On every state reachable with [1 <= max_requests], a call at [t]
    is denied exactly when the client's log holds [max_requests] entries
    and its oldest entry is less than [window_size] old at [t]. *)
Theorem denied_iff_full_and_live (m w : Z) self c t :
  1 ≤ m → reachable m w self →
  (allowRequest self c t).1 = false ↔
  Z.of_nat (length (log_of self c)) = m ∧
  ∃ oldest rest, log_of self c = oldest :: rest ∧ t - oldest < w.
Proof.
  intros Hm Hreach. split.
  - intros Hdenied.
    destruct (reachable_denied_inv m w self c t Hm Hreach Hdenied)
      as (oldest & rest & Hlog & Hlive & Hfull).
    split; [exact Hfull | by exists oldest, rest].
  - intros (Hfull & oldest & rest & Hlog & Hlive).
    destruct (reachable_config m w self Hreach) as [Hm' Hw'].
    rewrite allowRequest_verdict, Hm', Hw'. rewrite Hlog in *.
    rewrite expire_cons_live by done.
    unfold check_valid. apply Z.ltb_ge. lia.
Qed.

(** X8. Retry time. On a state reachable with [1 <= max_requests], after
    a call denied at [t] the client's next call, at any time [t'], is
    admitted exactly when the oldest entry of its log is at least
    [window_size] old at [t']; at [t] itself that entry is younger. *)
Theorem retry_after_oldest_expires (m w : Z) self c t :
  1 ≤ m → reachable m w self →
  (allowRequest self c t).1 = false →
  ∃ oldest rest,
    log_of self c = oldest :: rest ∧ t - oldest < w ∧
    ∀ t', (allowRequest (allowRequest self c t).2 c t').1 = true ↔
          stale w t' oldest.
Proof.
  intros Hm Hreach Hdenied.
  destruct (reachable_denied_inv m w self c t Hm Hreach Hdenied)
    as (oldest & rest & Hlog & Hlive & Hfull).
  exists oldest, rest. split_and!; [done | done |].
  intros t'. rewrite (denied_reachable_same m w self c t) by done.
  destruct (reachable_config m w self Hreach) as [Hm' Hw'].
  rewrite allowRequest_verdict, Hm', Hw'. rewrite Hlog in *.
  unfold stale, check_valid. simpl length in Hfull.
  destruct (Z_lt_ge_dec (t' - oldest) w) as [Hyoung | Hold].
  - rewrite expire_cons_live by done. simpl length.
    split; [intros ?%Z.ltb_lt; lia | lia].
  - rewrite expire_cons_expired by lia.
    pose proof (expire_length w t' rest).
    split; [lia | intros _; apply Z.ltb_lt; lia].
Qed.

(** X9. A denied request costs nothing. On a state reachable with
    [1 <= max_requests], a denied call leaves the instance exactly as it
    was, so the calls that follow are answered as if it had not been
    made. *)
Theorem denied_is_free (m w : Z) self c t :
  1 ≤ m → reachable m w self →
  (allowRequest self c t).1 = false →
  (allowRequest self c t).2 = self ∧
  ∀ calls, run self ((c, t) :: calls) =
             ((c, t, false) :: (run self calls).1, (run self calls).2).
Proof.
  intros Hm Hreach Hdenied.
  pose proof (denied_reachable_same m w self c t Hm Hreach Hdenied) as Hsame.
  split; [exact Hsame |].
  intros calls. by rewrite run_cons, Hsame, Hdenied.
Qed.
End denial.

(** ** The clock's origin, the mapping's keys, the memory held *)

Section shape.
Context {K : Type} `{Countable K}.
Implicit Types (self : FixedWindowRateLimiter K) (c : K) (t : Z).
Implicit Types (calls : list (K * Z)).

Lemma shift_log_of d self c :
  log_of (shift_limiter d self) c = shift_log d (log_of self c).
Proof.
  unfold log_of, shift_limiter. cbn [request_logs].
  rewrite lookup_fmap. by destruct (request_logs self !! c).
Qed.

Lemma step_log_shift (m w d : Z) q t :
  step_log m w (shift_log d q) (t + d) =
    ((step_log m w q t).1, shift_log d (step_log m w q t).2).
Proof.
  unfold step_log, check_valid. cbn [fst snd]. rewrite expire_shift.
  unfold shift_log at 1 2. rewrite length_fmap.
  destruct (_ <? _); [| done].
  unfold shift_log. by rewrite fmap_app.
Qed.

Lemma allowRequest_shift d self c t :
  allowRequest (shift_limiter d self) c (t + d) =
    ((allowRequest self c t).1, shift_limiter d (allowRequest self c t).2).
Proof.
  rewrite (allowRequest_step (shift_limiter d self)), shift_log_of.
  cbn [max_requests window_size request_logs shift_limiter].
  rewrite step_log_shift. cbn zeta. cbn [fst snd].
  rewrite (allowRequest_step self). cbn zeta. cbn [fst snd].
  f_equal. unfold shift_limiter. cbn [max_requests window_size request_logs].
  by rewrite fmap_insert.
Qed.

Lemma run_shift d calls :
  ∀ self,
    run (shift_limiter d self) (shift_calls d calls) =
      (shift_events d (run self calls).1, shift_limiter d (run self calls).2).
Proof.
  induction calls as [|[c t] calls IH]; intros self; [done |].
  change (shift_calls d ((c, t) :: calls))
    with ((c, t + d) :: shift_calls d calls).
  rewrite !run_cons, allowRequest_shift. cbn [fst snd].
  rewrite IH. done.
Qed.

Lemma shift_new (m w d : Z) : shift_limiter d (new (K:=K) m w) = new m w.
Proof. unfold shift_limiter, new. cbn. by rewrite fmap_empty. Qed.

(** X12. The origin of the clock does not matter: moving every timestamp
    of a call sequence by the same amount [d] gives the same verdicts,
    call by call, and leaves the same logs moved by [d]. *)
Theorem shift_invariance (m w d : Z) calls :
  verdicts (run (new m w) (shift_calls d calls)).1 =
    verdicts (run (new m w) calls).1 ∧
  (run (new m w) (shift_calls d calls)).2 =
    shift_limiter d (run (new m w) calls).2.
Proof.
  pose proof (run_shift d calls (new m w)) as Hrun.
  rewrite shift_new in Hrun. rewrite Hrun. cbn [fst snd].
  split; [| done].
  unfold verdicts, shift_events. rewrite <- list_fmap_compose.
  by apply list_fmap_ext.
Qed.

Lemma run_dom calls :
  ∀ self,
    dom (request_logs (run self calls).2) =
      dom (request_logs self) ∪ clients_of calls.
Proof.
  induction calls as [|[c t] calls IH]; intros self.
  - unfold clients_of. simpl. by rewrite (right_id_L ∅ (∪)).
  - rewrite run_cons. cbn [snd]. rewrite IH, allowRequest_logs, dom_insert_L.
    unfold clients_of. simpl.
    by rewrite (comm_L (∪) {[c]}), (assoc_L (∪)).
Qed.

(** X13. Entries are created and never removed, and the configuration
    never changes: after any run the keys of the mapping are the keys it
    had before together with every client that called, admitted or not,
    and [max_requests] and [window_size] are what they were. *)
Theorem clients_created_never_removed self calls :
  dom (request_logs (run self calls).2) =
    dom (request_logs self) ∪ clients_of calls ∧
  max_requests (run self calls).2 = max_requests self ∧
  window_size (run self calls).2 = window_size self.
Proof. split; [apply run_dom | apply run_config]. Qed.

Lemma sum_list_with_bound {A} (f : A → nat) (b : nat) (l : list A) :
  Forall (λ x, (f x ≤ b)%nat) l → (sum_list_with f l ≤ length l * b)%nat.
Proof. induction 1 as [|x l Hx _ IH]; simpl; lia. Qed.

(** X16. Memory. After any run on a fresh limiter the number of
    timestamps held, over all clients, is at most the number of distinct
    clients that called times [max max_requests 0]. *)
Theorem total_entries_bounded (m w : Z) calls :
  Z.of_nat (total_entries (run (new m w) calls).2) ≤
    Z.of_nat (size (clients_of calls)) * Z.max m 0.
Proof.
  set (self := (run (new m w) calls).2).
  assert (reachable m w self) as Hreach by (by exists calls).
  assert (size (clients_of calls) = length (map_to_list (request_logs self)))
    as ->.
  { rewrite length_map_to_list, <- size_dom. unfold self.
    rewrite run_dom. f_equal. unfold new. cbn [request_logs].
    by rewrite dom_empty_L, (left_id_L ∅ (∪)). }
  unfold total_entries.
  pose proof (sum_list_with_bound (λ kv : K * list Z, length kv.2)
                (Z.to_nat (Z.max m 0)) (map_to_list (request_logs self))) as Hsum.
  assert (Forall (λ kv : K * list Z, (length kv.2 ≤ Z.to_nat (Z.max m 0))%nat)
                 (map_to_list (request_logs self))) as Hall.
  { apply Forall_forall. intros [c q] Hcq%elem_of_map_to_list.
    pose proof (reachable_length m w self c Hreach) as Hlen.
    unfold log_of in Hlen. rewrite Hcq in Hlen. simpl in *. lia. }
  specialize (Hsum Hall). nia.
Qed.
End shape.

(** ** The module's tests *)

(** X17. Each of the four test functions of the module runs to its end
    without a failed [assert], and so does the main block that calls
    them in turn. *)
Theorem tests_pass :
  Tests.test_basic_allow_and_deny = Some () ∧
  Tests.test_cleanup_after_window = Some () ∧
  Tests.test_multiple_clients = Some () ∧
  Tests.test_exact_window_boundary = Some () ∧
  Tests.main = Some ().
Proof. vm_compute. done. Qed.

(** The order of the timestamps matters to X3 and to the capacity bound:
    when a client's clock goes back (0, 1, 1000, then 5), the call at 1000
    empties the log, the call at 5 is admitted, and the window [[0, 10)]
    holds three admitted calls while [max_requests] is 2. *)
Example capacity_needs_order :
  let calls := [("A", 0); ("A", 1); ("A", 1000); ("A", 5)] in
  verdicts (run (new 2 10) calls).1 = [true; true; true; true] ∧
  count_in 10 0 (admitted (events_of "A" (run (new 2 10) calls).1)) = 3 ∧
  log_of (run (new 2 10) calls).2 "A" = [1000; 5].
Proof. vm_compute. done. Qed.

(** ** Witnesses of the further properties *)

Lemma nonpositive_max_admits_nothing_witness :
  let calls := [("A", 1); ("B", 2); ("A", 30)] in
  0 ≤ 0 ∧
  Forall (λ e, e.2 = false) (run (new 0 10) calls).1 ∧
  ∀ c, log_of (run (new 0 10) calls).2 c = [].
Proof.
  intros calls. split; [lia |].
  apply (nonpositive_max_admits_nothing 0 10 calls). lia.
Defined.

Lemma verdict_iff_window_count_witness :
  let calls := [("A", 1); ("B", 1); ("A", 2)] in
  Sorted Z.le (times_of "A" (calls ++ [("A", 11)])) ∧
  ((allowRequest (run (new 2 10) calls).2 "A" 11).1 = true ↔
   count_in_right 10 (11 - 10)
     (admitted (events_of "A" (run (new 2 10) calls).1)) < 2).
Proof.
  intros calls.
  assert (Sorted Z.le (times_of "A" (calls ++ [("A", 11)]))) as Hs.
  { change (times_of "A" (calls ++ [("A", 11)])) with [1; 2; 11].
    repeat constructor; lia. }
  split; [exact Hs |].
  exact (verdict_iff_window_count 2 10 "A" calls 11 Hs).
Defined.

Lemma log_is_window_of_admitted_witness :
  let calls := [("A", 1); ("B", 1); ("A", 2)] in
  0 < 10 ∧
  Sorted Z.le (times_of "A" (calls ++ [("A", 11)])) ∧
  log_of (run (new 2 10) (calls ++ [("A", 11)])).2 "A" =
    filter (in_window_right 10 (11 - 10))
           (admitted (events_of "A" (run (new 2 10) (calls ++ [("A", 11)])).1)).
Proof.
  intros calls.
  assert (Sorted Z.le (times_of "A" (calls ++ [("A", 11)]))) as Hs.
  { change (times_of "A" (calls ++ [("A", 11)])) with [1; 2; 11].
    repeat constructor; lia. }
  split_and!; [lia | exact Hs |].
  apply (log_is_window_of_admitted 2 10 "A" calls 11); [lia | exact Hs].
Defined.

Lemma log_sorted_call_times_witness :
  let calls := [("A", 1); ("B", 1); ("A", 2); ("A", 11)] in
  Sorted Z.le (times_of "A" calls) ∧
  StronglySorted Z.le (log_of (run (new 2 10) calls).2 "A").
Proof.
  intros calls.
  assert (Sorted Z.le (times_of "A" calls)) as Hs.
  { change (times_of "A" calls) with [1; 2; 11]. repeat constructor; lia. }
  split; [exact Hs |].
  exact (proj1 (log_sorted_call_times 2 10 "A" calls Hs)).
Defined.

Lemma denied_iff_full_and_live_witness :
  let self := (run (new 2 10) [("A", 1); ("A", 2)]).2 in
  1 ≤ 2 ∧ reachable 2 10 self ∧
  ((allowRequest self "A" 2).1 = false ↔
   Z.of_nat (length (log_of self "A")) = 2 ∧
   ∃ oldest rest, log_of self "A" = oldest :: rest ∧ 2 - oldest < 10).
Proof.
  intros self.
  assert (reachable 2 10 self) as Hreach.
  { exists [("A", 1); ("A", 2)]. reflexivity. }
  split_and!; [lia | exact Hreach |].
  apply (denied_iff_full_and_live 2 10 self "A" 2); [lia | exact Hreach].
Defined.

Lemma retry_after_oldest_expires_witness :
  let self := (run (new 2 10) [("A", 1); ("A", 2)]).2 in
  1 ≤ 2 ∧ reachable 2 10 self ∧ (allowRequest self "A" 2).1 = false ∧
  ∃ oldest rest,
    log_of self "A" = oldest :: rest ∧ 2 - oldest < 10 ∧
    ∀ t', (allowRequest (allowRequest self "A" 2).2 "A" t').1 = true ↔
          stale 10 t' oldest.
Proof.
  intros self.
  assert (reachable 2 10 self) as Hreach.
  { exists [("A", 1); ("A", 2)]. reflexivity. }
  assert ((allowRequest self "A" 2).1 = false) as Hdenied
    by (vm_compute; reflexivity).
  split_and!; [lia | exact Hreach | exact Hdenied |].
  apply (retry_after_oldest_expires 2 10 self "A" 2);
    [lia | exact Hreach | exact Hdenied].
Defined.

Lemma denied_is_free_witness :
  let self := (run (new 2 10) [("A", 1); ("A", 2)]).2 in
  1 ≤ 2 ∧ reachable 2 10 self ∧ (allowRequest self "A" 2).1 = false ∧
  (allowRequest self "A" 2).2 = self.
Proof.
  intros self.
  assert (reachable 2 10 self) as Hreach.
  { exists [("A", 1); ("A", 2)]. reflexivity. }
  assert ((allowRequest self "A" 2).1 = false) as Hdenied
    by (vm_compute; reflexivity).
  split_and!; [lia | exact Hreach | exact Hdenied |].
  apply (denied_is_free 2 10 self "A" 2); [lia | exact Hreach | exact Hdenied].
Defined.

Lemma denied_repeat_unchanged_witness :
  let self := (run (new 2 10) [("A", 1); ("A", 2)]).2 in
  (allowRequest self "A" 2).1 = false ∧
  allowRequest (allowRequest self "A" 2).2 "A" 2 =
    (false, (allowRequest self "A" 2).2).
Proof.
  intros self.
  assert ((allowRequest self "A" 2).1 = false) as Hdenied
    by (vm_compute; reflexivity).
  split; [exact Hdenied |].
  exact (denied_repeat_unchanged self "A" 2 Hdenied).
Defined.

Lemma admission_monotone_in_time_witness :
  let self := (run (new 1 10) [("A", 1)]).2 in
  11 ≤ 20 ∧ (allowRequest self "A" 11).1 = true ∧
  (allowRequest self "A" 20).1 = true.
Proof.
  intros self.
  assert ((allowRequest self "A" 11).1 = true) as Hadm
    by (vm_compute; reflexivity).
  split_and!; [lia | exact Hadm |].
  apply (admission_monotone_in_time self "A" 11 20); [lia | exact Hadm].
Defined.

Lemma nonpositive_window_admits_all_witness :
  let calls := [("A", 1); ("A", 1); ("B", 2); ("A", 3)] in
  0 ≤ 0 ∧ 1 ≤ 1 ∧ Sorted Z.le (times_of "A" calls) ∧
  Forall (λ e, e.2 = true) (events_of "A" (run (new 1 0) calls).1) ∧
  log_of (run (new 1 0) calls).2 "A" = option_list (last (times_of "A" calls)).
Proof.
  intros calls.
  assert (Sorted Z.le (times_of "A" calls)) as Hs.
  { change (times_of "A" calls) with [1; 1; 3]. repeat constructor; lia. }
  split_and!; [lia | lia | exact Hs | |];
    apply (nonpositive_window_admits_all 1 0 "A" calls); (lia || exact Hs).
Defined.

Lemma distinct_clients_commute_witness :
  let self := (run (new 1 10) [("A", 1)]).2 in
  "A" ≠ "B" ∧
  (allowRequest (allowRequest self "A" 5).2 "B" 6).2 =
    (allowRequest (allowRequest self "B" 6).2 "A" 5).2.
Proof.
  intros self. split; [done |].
  apply (distinct_clients_commute self "A" 5 "B" 6). done.
Defined.

(** ** What a denied call does to the state *)

Section denied_effect.
Context {K : Type} `{Countable K}.
Implicit Types (self : FixedWindowRateLimiter K) (c : K) (t : Z).

(** C10, as the code has it. When [allowRequest self c t] returns
    [false], nothing is appended and [c]'s log afterwards is its log
    before with the stale prefix removed. On every state reachable from a
    fresh limiter that prefix is empty, so the log is what it was: a
    denied request is state-neutral. With [1 <= max_requests] the whole
    instance is unchanged; with [max_requests <= 0] the log is empty
    before and after, and the only change is that the client's entry now
    exists. A later call of the same client returns [true] once the
    entries of the log have aged out, given [0 < max_requests]. *)
Theorem denied_request_neutral (m w : Z) self c t :
  (allowRequest self c t).1 = false →
  log_of (allowRequest self c t).2 c =
    expire (window_size self) t (log_of self c) ∧
  (reachable m w self →
   expire w t (log_of self c) = log_of self c ∧
   log_of (allowRequest self c t).2 c = log_of self c ∧
   (1 ≤ m → (allowRequest self c t).2 = self) ∧
   (m ≤ 0 →
    log_of self c = [] ∧
    request_logs (allowRequest self c t).2 = <[c := []]> (request_logs self)) ∧
   ∀ t', 0 < m → Forall (stale w t') (log_of self c) →
         (allowRequest (allowRequest self c t).2 c t').1 = true).
Proof.
  intros Hdenied.
  destruct (denied_still_expires self c t Hdenied) as (Hlog & _ & Hlater).
  split; [exact Hlog |]. intros Hreach.
  destruct (reachable_config m w self Hreach) as [Hm' Hw'].
  pose proof (reachable_length m w self c Hreach) as Hlen.
  assert (m ≤ 0 → log_of self c = []) as Hempty.
  { intros Hm. destruct (log_of self c); [done | simpl in Hlen; lia]. }
  assert (expire w t (log_of self c) = log_of self c) as Hsame.
  { destruct (Z_lt_ge_dec m 1) as [Hm | Hm].
    - rewrite Hempty by lia. done.
    - destruct (denied_reachable_unchanged m w self c t) as [Hkeep _];
        [lia | done | done |].
      by rewrite Hlog, Hw' in Hkeep. }
  assert (log_of (allowRequest self c t).2 c = log_of self c) as Hkeep
    by (by rewrite Hlog, Hw').
  split_and!; [exact Hsame | exact Hkeep | | |].
  - intros Hm. by apply (denied_reachable_same m w).
  - intros Hm. split; [by apply Hempty |].
    rewrite allowRequest_logs, <- allowRequest_log, Hkeep.
    by rewrite Hempty.
  - intros t' Hm Hold. apply Hlater; [lia |].
    by rewrite Hkeep, Hw'.
Qed.
End denied_effect.

(** C10, as it is worded, fails: in the boundary scenario the call denied
    at 2 finds no stale entry to remove and returns the very instance it
    was given, so this denied request is state-neutral. *)
Lemma denied_call_changes_nothing :
  let self := (run (new 2 10) [("A", 1); ("A", 2)]).2 in
  (allowRequest self "A" 2).1 = false ∧
  log_of self "A" = [1; 2] ∧
  expire 10 2 (log_of self "A") = log_of self "A" ∧
  (allowRequest self "A" 2).2 = self ∧
  ¬ (allowRequest self "A" 2).2 ≠ self.
Proof.
  intros self.
  assert ((allowRequest self "A" 2).2 = self) as Hsame
    by (vm_compute; reflexivity).
  split_and!; [by vm_compute | by vm_compute | by vm_compute | exact Hsame |].
  intros Hne. exact (Hne Hsame).
Qed.

(** A witness of C10: after calls at 1, 2 and 11 the log is [[2; 11]]; a
    second call at 11 is denied and changes nothing, and a call at 21,
    when both entries are stale, is admitted. *)
Lemma denied_request_neutral_witness :
  let self := (run (new 2 10) [("A", 1); ("A", 2); ("A", 11)]).2 in
  (allowRequest self "A" 11).1 = false ∧
  reachable 2 10 self ∧
  log_of (allowRequest self "A" 11).2 "A" = log_of self "A" ∧
  (allowRequest self "A" 11).2 = self ∧
  (allowRequest (allowRequest self "A" 11).2 "A" 21).1 = true.
Proof.
  intros self.
  assert ((allowRequest self "A" 11).1 = false) as Hdenied
    by (vm_compute; reflexivity).
  assert (reachable 2 10 self) as Hreach.
  { exists [("A", 1); ("A", 2); ("A", 11)]. reflexivity. }
  destruct (denied_request_neutral 2 10 self "A" 11 Hdenied) as [_ Hon].
  destruct (Hon Hreach) as (_ & Hkeep & Hsame & _ & Hlater).
  split_and!; [exact Hdenied | exact Hreach | exact Hkeep | |].
  - apply Hsame. lia.
  - apply Hlater; [lia |].
    change (log_of self "A") with [2; 11].
    repeat constructor; unfold stale; lia.
Defined.
